(** * fix_profile.py: a shallow embedding and its verified properties

    The script reads [MotoRev/Views/ProfileView.swift] in text mode, applies
    two literal [str.replace] calls, writes the text back and prints a
    confirmation line.  The module [re] is imported but never used.

    Python text ([str]) is a sequence of Unicode code points; it is modelled
    as a list of code points.  A file's content is the text that text-mode
    I/O exchanges with the program (what [f.read()] returns and what
    [f.write] receives); decoding, encoding and newline translation lie
    below this model. *)

From Stdlib Require Import NArith Ascii String List Lia Bool.
From stdpp Require Import base list strings gmap.

Open Scope N_scope.
Open Scope nat_scope.
Open Scope list_scope.

(** ** Python text *)

Module Text.

Abbreviation char := N.
Abbreviation str := (list N).

(** A source literal (ASCII only in this script) as Python text. *)
Definition lit (s : string) : str :=
  List.map N_of_ascii (list_ascii_of_string s).

(** [s.startswith(p)]: [p] matches [s] at its first character, code point by
    code point. *)
Fixpoint startswith (p s : str) : bool :=
  match p, s with
  | [], _ => true
  | _ :: _, [] => false
  | a :: p', b :: s' => N.eqb a b && startswith p' s'
  end.

(** [p] occurs in [s] at index [i]: [s[i:i+len(p)] == p]. *)
Definition occurs_at (p s : str) (i : nat) : bool :=
  startswith p (drop i s).

(** [p in s], for the suffixes of [s] from left to right. *)
Fixpoint contains (p s : str) : bool :=
  startswith p s ||
  match s with
  | [] => false
  | _ :: s' => contains p s'
  end.

(** The scanning loop of [str.replace] for a non-empty [old]: at a position
    where [old] matches, [new] is emitted and the scan resumes after the
    match ([skip] counts the matched characters still to pass over);
    elsewhere the character is copied.  Matches are thus taken leftmost
    first and never overlap. *)
Fixpoint replace_loop (old new : str) (skip : nat) (s : str) : str :=
  match s with
  | [] => []
  | c :: s' =>
      match skip with
      | S k => replace_loop old new k s'
      | O =>
          if startswith old s
          then new ++ replace_loop old new (length old - 1) s'
          else c :: replace_loop old new 0 s'
      end
  end.

(** [s.replace(old, new)] with the default count (all occurrences).  An empty
    [old] matches before every character and at the end. *)
Definition replace (old new s : str) : str :=
  match old with
  | [] => new ++ flat_map (fun c => c :: new) s
  | _ :: _ => replace_loop old new 0 s
  end.

End Text.

Import Text.

(** ** The script's constants *)

Definition target_path : string := "MotoRev/Views/ProfileView.swift".

Definition completion_old : str :=
  lit "receiveCompletion: { [weak self] (completion: Subscribers.Completion<e>) in".
Definition completion_new : str :=
  lit "receiveCompletion: { [weak self] completion in".
Definition value_old : str :=
  lit "receiveValue: { [weak self] (response: UpdateProfileResponse) in".
Definition value_new : str :=
  lit "receiveValue: { [weak self] response in".
Definition confirmation : str :=
  lit "Fixed ProfileView.swift compilation errors".

(** Lines 7-15: the two substitutions, in the script's order. *)
Definition first_substitution (content : str) : str :=
  replace completion_old completion_new content.
Definition second_substitution (content : str) : str :=
  replace value_old value_new content.
Definition transform (content : str) : str :=
  second_substitution (first_substitution content).

(** ** Alignments of two texts *)

(** [a] and [b] agree on their common length (one is a prefix of the other). *)
Fixpoint agree (a b : str) : bool :=
  match a, b with
  | x :: a', y :: b' => N.eqb x y && agree a' b'
  | _, _ => true
  end.

(** Some occurrence of [x] could begin inside [sep]: from index [j] on, [sep]
    and [x] agree. *)
Definition clash_inside (sep x : str) : bool :=
  existsb (fun j => agree (drop j sep) x) (seq 0 (length sep)).

(** Some occurrence of [x] could begin before [sep] and run into it: from
    index [k >= 1] on, [x] agrees with [sep]. *)
Definition clash_before (sep x : str) : bool :=
  existsb (fun k => agree (drop k x) sep) (seq 1 (length x - 1)).

Definition overlappable (sep x : str) : bool :=
  clash_inside sep x || clash_before sep x.

(** No proper suffix of [x] is a prefix of [x]: two occurrences of [x] never
    overlap. *)
Definition border_free (x : str) : bool := negb (clash_before x x).

(** Every occurrence of [x] in [a ++ b] that begins inside [a] also ends
    inside [a]. *)
Definition no_straddle (x a b : str) : Prop :=
  forall u w, a = u ++ w -> w <> [] ->
    startswith x (w ++ b) = true -> startswith x w = true.

(** The number of indices at which [p] occurs in [s]. *)
Fixpoint count_occurrences (p s : str) : nat :=
  (if startswith p s then 1 else 0) +
  match s with
  | [] => 0
  | _ :: s' => count_occurrences p s'
  end.

(** ** Substitution as the specification words it

    "Replaces every occurrence of [old] with [new] and leaves every
    character not part of such an occurrence unchanged", read index by
    index: at an index where [old] occurs, [new] is written; a character
    lying in an occurrence is dropped; any other character is kept. *)

Definition part_of_occurrence (p s : str) (i : nat) : bool :=
  existsb (fun j => occurs_at p s j && (i <? j + length p)) (seq 0 (S i)).

Definition substitute_at (old new s : str) (i : nat) : str :=
  (if occurs_at old s i then new else []) ++
  (if part_of_occurrence old s i then [] else take 1 (drop i s)).

Definition substitute_every (old new s : str) : str :=
  flat_map (substitute_at old new s) (seq 0 (length s)).

(** ** Files, standard output and failures *)

Inductive exn : Type :=
  | FileNotFoundError
  | PermissionError.

Record file : Type := File {
  readable : bool;
  writable : bool;
  text : str
}.

(** The process state: the file system and what has been printed so far. *)
Record state : Type := State {
  files : gmap string file;
  stdout : str
}.

(** An action either returns a value or raises; effects made before a
    failure stay. *)
Definition M (A : Type) : Type := state -> (exn + A) * state.

#[global] Instance M_ret : MRet M := fun A x st => (inr x, st).
#[global] Instance M_bind : MBind M := fun A B k m st =>
  match m st with
  | (inl e, st') => (inl e, st')
  | (inr a, st') => k a st'
  end.

(** [with open(path, 'r') as f: f.read()] *)
Definition read_text (path : string) : M str := fun st =>
  match files st !! path with
  | None => (inl FileNotFoundError, st)
  | Some f =>
      if readable f then (inr (text f), st) else (inl PermissionError, st)
  end.

(** [with open(path, 'w') as f: f.write(content)]: the file is truncated, or
    created when absent, and receives [content]. *)
Definition write_text (path : string) (content : str) : M unit := fun st =>
  match files st !! path with
  | None =>
      (inr tt, State (<[path := File true true content]> (files st)) (stdout st))
  | Some f =>
      if writable f
      then (inr tt,
            State (<[path := File (readable f) (writable f) content]> (files st))
                  (stdout st))
      else (inl PermissionError, st)
  end.

(** [print(s)]: the text and a newline. *)
Definition print (s : str) : M unit := fun st =>
  (inr tt, State (files st) (stdout st ++ s ++ [10%N])).

(** The script, top to bottom. *)
Definition main : M unit :=
  content ← read_text target_path;
  let content := replace completion_old completion_new content in
  let content := replace value_old value_new content in
  _ ← write_text target_path content;
  print confirmation.

(** One run of the script on a file system, with nothing printed yet. *)
Definition run (fs : gmap string file) : (exn + unit) * state :=
  main (State fs []).

Definition files_after (fs : gmap string file) : gmap string file :=
  files (snd (run fs)).
Definition printed (fs : gmap string file) : str :=
  stdout (snd (run fs)).
Definition outcome (fs : gmap string file) : exn + unit :=
  fst (run fs).

(** What the scan of [s] for [old] knows after passing the first [n]
    characters with [skip] matched characters still to pass over: either no
    occurrence that began earlier reaches index [n], or the occurrence being
    passed over began at [j0] and ends [skip] characters ahead. *)
Definition scan_invariant (old s : str) (n skip : nat) : Prop :=
  match skip with
  | O => forall j, j < n -> occurs_at old s j = true -> j + length old <= n
  | S _ => exists j0, j0 + length old = n + skip /\ j0 < n /\
                     occurs_at old s j0 = true
  end.

(** ** Sample inputs *)

Definition sample_content : str :=
  lit "a" ++ completion_old ++ lit "b" ++ completion_old.
Definition sample_value_content : str :=
  lit "a" ++ value_old ++ lit "b" ++ value_old.
Definition plain_content : str := lit "struct ProfileView: View {}".
Definition plain_fs : gmap string file :=
  {[ target_path := File true true plain_content ]}.

Definition both_content : str :=
  lit "x" ++ completion_old ++ lit "y" ++ value_old ++ lit "z".
Definition both_fs : gmap string file :=
  <[ "README.md"%string := File true false (lit "notes") ]>
    {[ target_path := File true true both_content ]}.
Definition locked_fs : gmap string file :=
  {[ target_path := File true false both_content ]}.

(* ================================================================== *)
(** * Properties *)

(** ** Prefix tests *)

Section Prefix.

Lemma startswith_app (p t : str) : startswith p (p ++ t) = true.
Proof.
  induction p as [|a p IH]; simpl; [reflexivity|].
  rewrite N.eqb_refl. exact IH.
Qed.

Lemma startswith_inv (p s : str) :
  startswith p s = true -> exists t, s = p ++ t.
Proof.
  revert s. induction p as [|a p IH]; intros s H.
  - exists s. reflexivity.
  - destruct s as [|b s]; simpl in H; [discriminate|].
    apply andb_true_iff in H as [Hab Hp].
    apply N.eqb_eq in Hab. subst b.
    destruct (IH _ Hp) as [t ->]. exists t. reflexivity.
Qed.

Lemma startswith_nil_r (p : str) : startswith p [] = true -> p = [].
Proof. destruct p; [reflexivity | discriminate]. Qed.

(** A match against [w ++ r] that fits in [w] is a match against [w]. *)
Lemma startswith_app_short (p w r : str) :
  startswith p (w ++ r) = true -> length p <= length w ->
  startswith p w = true.
Proof.
  revert w. induction p as [|a p IH]; intros w H Hl; [reflexivity|].
  destruct w as [|b w]; simpl in Hl; [lia|].
  simpl in *. apply andb_true_iff in H as [-> Hp]. simpl.
  apply IH; [exact Hp | lia].
Qed.

(** A match against [w ++ r] that runs past [w] continues as a match of the
    rest of [p] against [r]. *)
Lemma startswith_app_long (p w r : str) :
  startswith p (w ++ r) = true -> length w <= length p ->
  startswith (drop (length w) p) r = true.
Proof.
  revert p. induction w as [|b w IH]; intros p H Hl; [exact H|].
  destruct p as [|a p]; simpl in Hl; [lia|].
  simpl in *. apply andb_true_iff in H as [_ Hp].
  apply IH; [exact Hp | lia].
Qed.

Lemma startswith_mono (p w r : str) :
  startswith p w = true -> startswith p (w ++ r) = true.
Proof.
  intros H. apply startswith_inv in H as [t ->].
  rewrite <- app_assoc. apply startswith_app.
Qed.

Lemma startswith_agree (p u v : str) :
  startswith p (u ++ v) = true -> agree p u = true.
Proof.
  revert u. induction p as [|a p IH]; intros u H; [reflexivity|].
  destruct u as [|b u]; [reflexivity|].
  simpl in *. apply andb_true_iff in H as [-> Hp]. simpl. eauto.
Qed.

Lemma agree_sym (a b : str) : agree a b = agree b a.
Proof.
  revert b. induction a as [|x a IH]; intros [|y b]; simpl; try reflexivity.
  rewrite IH, N.eqb_sym. reflexivity.
Qed.

End Prefix.

(** ** Occurrences *)

Section Occurrences.

Lemma contains_here (p s : str) : startswith p s = true -> contains p s = true.
Proof. intros H. destruct s; simpl in *; rewrite H; reflexivity. Qed.

Lemma contains_cons (p : str) (c : char) (s : str) :
  contains p (c :: s) = startswith p (c :: s) || contains p s.
Proof. reflexivity. Qed.

Lemma contains_app_r (p u s : str) :
  contains p s = true -> contains p (u ++ s) = true.
Proof.
  intros H. induction u as [|c u IH]; [exact H|].
  simpl app. rewrite contains_cons, IH. apply orb_true_r.
Qed.

Lemma contains_app_l (p s v : str) :
  contains p s = true -> contains p (s ++ v) = true.
Proof.
  induction s as [|c s IH]; intros H.
  - simpl in H. rewrite orb_false_r in H.
    apply startswith_nil_r in H. subst p. apply contains_here. reflexivity.
  - simpl app. rewrite contains_cons in *.
    apply orb_true_iff in H as [H|H].
    + pose proof (startswith_mono p (c :: s) v H) as H'.
      simpl app in H'. rewrite H'. reflexivity.
    + rewrite (IH H). apply orb_true_r.
Qed.



End Occurrences.

(** ** Equations of [replace] *)

Section Replace.

Variables old new : str.
Hypothesis old_nonempty : old <> [].

Lemma replace_loop_skip (k : nat) (u s : str) :
  length u = k ->
  replace_loop old new k (u ++ s) = replace_loop old new 0 s.
Proof.
  revert k. induction u as [|c u IH]; intros k Hk; simpl in Hk; subst k.
  - reflexivity.
  - simpl. apply IH. reflexivity.
Qed.

Lemma replace_eq (s : str) : replace old new s = replace_loop old new 0 s.
Proof. unfold replace. destruct old; [contradiction | reflexivity]. Qed.

Lemma replace_nil : replace old new [] = [].
Proof. rewrite replace_eq. reflexivity. Qed.

Lemma replace_loop_0 (c : char) (s : str) :
  replace_loop old new 0 (c :: s) =
  if startswith old (c :: s)
  then new ++ replace_loop old new (length old - 1) s
  else c :: replace_loop old new 0 s.
Proof. reflexivity. Qed.

(** Where [old] matches, [new] is emitted and the scan resumes after it. *)
Lemma replace_match (s : str) :
  replace old new (old ++ s) = new ++ replace old new s.
Proof.
  rewrite !replace_eq.
  assert (exists a o, old = a :: o) as (a & o & E)
    by (destruct old; [contradiction | eauto]).
  assert (Hs : old ++ s = a :: (o ++ s)) by (rewrite E; reflexivity).
  rewrite Hs, replace_loop_0, <- Hs, startswith_app. f_equal.
  apply replace_loop_skip. rewrite E. simpl. lia.
Qed.

(** Where [old] does not match, one character is copied. *)
Lemma replace_copy (c : char) (s : str) :
  startswith old (c :: s) = false ->
  replace old new (c :: s) = c :: replace old new s.
Proof. intros H. rewrite !replace_eq, replace_loop_0, H. reflexivity. Qed.

Lemma replace_noop (s : str) :
  contains old s = false -> replace old new s = s.
Proof.
  induction s as [|c s IH]; intros H; [apply replace_nil|].
  rewrite contains_cons in H. apply orb_false_iff in H as [H1 H2].
  rewrite replace_copy by exact H1. f_equal. auto.
Qed.

(** [replace] splits at a boundary that no occurrence straddles. *)
Lemma replace_app (a b : str) :
  no_straddle old a b ->
  replace old new (a ++ b) = replace old new a ++ replace old new b.
Proof.
  remember (length a) as n eqn:Hn. revert a Hn.
  induction n as [n IH] using lt_wf_ind. intros a Hn NS.
  destruct a as [|c a]; [rewrite replace_nil; reflexivity|].
  destruct (startswith old ((c :: a) ++ b)) eqn:Hm.
  - assert (Hw : startswith old (c :: a) = true)
      by (apply (NS [] (c :: a)); [reflexivity | discriminate | exact Hm]).
    apply startswith_inv in Hw as [t Ht]. rewrite Ht, <- app_assoc.
    rewrite !replace_match, <- app_assoc. f_equal.
    apply (IH (length t)); [|reflexivity|].
    + subst n. rewrite Ht, length_app.
      destruct old; [contradiction | simpl; lia].
    + intros u w -> Hne. apply (NS (old ++ u) w); [|exact Hne].
      rewrite Ht, <- app_assoc. reflexivity.
  - assert (Hw : startswith old (c :: a) = false).
    { destruct (startswith old (c :: a)) eqn:E; [|reflexivity].
      rewrite (startswith_mono _ _ b E) in Hm. discriminate. }
    change ((c :: a) ++ b) with (c :: (a ++ b)) in *.
    rewrite !replace_copy by assumption.
    simpl. f_equal.
    apply (IH (length a)); [subst n; simpl; lia | reflexivity |].
    intros u w -> Hne. apply (NS (c :: u) w); [reflexivity | exact Hne].
Qed.

(** The first occurrence: either [old] does not occur, or the text splits at
    its leftmost occurrence. *)
Lemma replace_first_occurrence (s : str) :
  contains old s = false \/
  exists g r, s = g ++ old ++ r /\ contains old g = false /\
    replace old new s = g ++ new ++ replace old new r.
Proof.
  induction s as [|c s IH].
  - left. simpl. rewrite orb_false_r.
    destruct old; [contradiction | reflexivity].
  - destruct (startswith old (c :: s)) eqn:Hm.
    + right. apply startswith_inv in Hm as [t Ht].
      exists [], t. rewrite Ht. split; [reflexivity|]. split.
      * simpl. rewrite orb_false_r. destruct old; [contradiction | reflexivity].
      * apply replace_match.
    + destruct IH as [IH | (g & r & -> & Hg & Hr)].
      * left. rewrite contains_cons, Hm, IH. reflexivity.
      * right. exists (c :: g), r. split; [reflexivity|]. split.
        -- rewrite contains_cons, Hg, orb_false_r.
           destruct (startswith old (c :: g)) eqn:E; [|reflexivity].
           rewrite <- Hm. symmetry.
           apply (startswith_mono _ _ (old ++ r) E).
        -- rewrite replace_copy by exact Hm. rewrite Hr. reflexivity.
Qed.

(** Induction along the occurrences the scan replaces. *)
Lemma replace_occurrence_ind (P : str -> Prop) :
  (forall s, contains old s = false -> P s) ->
  (forall g r, contains old g = false -> P r ->
     replace old new (g ++ old ++ r) = g ++ new ++ replace old new r ->
     P (g ++ old ++ r)) ->
  forall s, P s.
Proof.
  intros Hfree Hstep s.
  remember (length s) as n eqn:Hn. revert s Hn.
  induction n as [n IH] using lt_wf_ind. intros s Hn.
  destruct (replace_first_occurrence s) as [H | (g & r & -> & Hg & Hr)].
  - apply Hfree, H.
  - apply Hstep; [exact Hg | | exact Hr].
    apply (IH (length r)); [|reflexivity].
    subst n. rewrite !length_app.
    destruct old; [contradiction | simpl; lia].
Qed.

End Replace.

(** ** Alignments that cannot occur *)

Section Overlap.

Variables sep x : str.

Lemma clash_before_no_straddle :
  clash_before sep x = false -> forall a v, no_straddle x a (sep ++ v).
Proof.
  intros Hc a v u w _ Hw Hm.
  destruct (le_lt_dec (length x) (length w)) as [Hl|Hl].
  - exact (startswith_app_short _ _ _ Hm Hl).
  - exfalso.
    assert (Hk : agree (drop (length w) x) sep = true).
    { eapply startswith_agree, startswith_app_long; [exact Hm | lia]. }
    assert (Hex : clash_before sep x = true).
    { apply existsb_exists. exists (length w). split; [|exact Hk].
      apply in_seq. destruct w; [contradiction | simpl in *; lia]. }
    congruence.
Qed.

Lemma clash_inside_no_start :
  clash_inside sep x = false ->
  forall u w v, sep = u ++ w -> w <> [] -> startswith x (w ++ v) = false.
Proof.
  intros Hc u w v Hsep Hw.
  destruct (startswith x (w ++ v)) eqn:Hm; [exfalso | reflexivity].
  apply startswith_agree in Hm. rewrite agree_sym in Hm.
  assert (Hex : clash_inside sep x = true).
  { apply existsb_exists. exists (length u). split.
    - apply in_seq. rewrite Hsep, length_app.
      destruct w; [contradiction | simpl; lia].
    - rewrite Hsep, drop_app_length. exact Hm. }
  congruence.
Qed.

Lemma overlappable_false :
  overlappable sep x = false ->
  clash_inside sep x = false /\ clash_before sep x = false.
Proof. apply orb_false_iff. Qed.

(** The scan for [x] copies a [sep] it cannot begin in. *)
Lemma replace_through (new : str) (v : str) :
  x <> [] -> clash_inside sep x = false ->
  replace x new (sep ++ v) = sep ++ replace x new v.
Proof.
  intros Hx Hc.
  enough (H : forall w u, sep = u ++ w ->
            replace x new (w ++ v) = w ++ replace x new v)
    by (apply (H sep []); reflexivity).
  induction w as [|c w IH]; intros u Hsep; [reflexivity|].
  change ((c :: w) ++ v) with (c :: (w ++ v)).
  rewrite replace_copy.
  - simpl. f_equal. apply (IH (u ++ [c])).
    rewrite Hsep, <- app_assoc. reflexivity.
  - exact Hx.
  - apply (clash_inside_no_start Hc u (c :: w) v Hsep). discriminate.
Qed.

Lemma contains_through (v : str) :
  clash_inside sep x = false -> contains x (sep ++ v) = contains x v.
Proof.
  intros Hc.
  enough (H : forall w u, sep = u ++ w -> contains x (w ++ v) = contains x v)
    by (apply (H sep []); reflexivity).
  induction w as [|c w IH]; intros u Hsep; [reflexivity|].
  change ((c :: w) ++ v) with (c :: (w ++ v)).
  rewrite contains_cons.
  change (c :: (w ++ v)) with ((c :: w) ++ v).
  rewrite (clash_inside_no_start Hc u (c :: w) v Hsep) by discriminate.
  simpl. apply (IH (u ++ [c])). rewrite Hsep, <- app_assoc. reflexivity.
Qed.

Lemma contains_app_no_straddle (a b : str) :
  no_straddle x a b -> contains x (a ++ b) = contains x a || contains x b.
Proof.
  induction a as [|c a IH]; intros NS.
  - simpl. rewrite orb_false_r.
    destruct (startswith x []) eqn:E; [|reflexivity].
    apply startswith_nil_r in E. rewrite E. apply contains_here. reflexivity.
  - change ((c :: a) ++ b) with (c :: (a ++ b)).
    rewrite !contains_cons, IH.
    + assert (E : startswith x (c :: a ++ b) = startswith x (c :: a)).
      { destruct (startswith x (c :: a)) eqn:E1.
        - apply (startswith_mono _ _ b E1).
        - destruct (startswith x (c :: a ++ b)) eqn:E2; [|reflexivity].
          rewrite <- E1. symmetry.
          apply (NS [] (c :: a)); [reflexivity | discriminate | exact E2]. }
      rewrite E. apply orb_assoc.
    + intros u w -> Hw. apply (NS (c :: u) w); [reflexivity | exact Hw].
Qed.

(** An occurrence of [x] in [u ++ sep ++ v] lies in [u] or in [v]. *)
Lemma contains_app3 (u v : str) :
  overlappable sep x = false ->
  contains x (u ++ sep ++ v) = contains x u || contains x v.
Proof.
  intros Ho. apply overlappable_false in Ho as [Hi Hb].
  rewrite contains_app_no_straddle by (apply clash_before_no_straddle, Hb).
  rewrite contains_through by exact Hi. reflexivity.
Qed.

(** The scan for [x] treats the two sides of a [sep] independently. *)
Lemma replace_app3 (new u v : str) :
  x <> [] -> overlappable sep x = false ->
  replace x new (u ++ sep ++ v) =
  replace x new u ++ sep ++ replace x new v.
Proof.
  intros Hx Ho. apply overlappable_false in Ho as [Hi Hb].
  rewrite replace_app;
    [| exact Hx | apply clash_before_no_straddle, Hb].
  rewrite replace_through by assumption. reflexivity.
Qed.

End Overlap.

Section NoOverlapConsequences.

Variables old new : str.
Hypothesis old_nonempty : old <> [].

(** For a border-free [old], an occurrence that follows text without [old]
    is the leftmost one. *)
Lemma replace_first (g r : str) :
  border_free old = true -> contains old g = false ->
  replace old new (g ++ old ++ r) = g ++ new ++ replace old new r.
Proof.
  intros Hb Hg. apply negb_true_iff in Hb.
  rewrite replace_app;
    [| exact old_nonempty | apply clash_before_no_straddle, Hb].
  rewrite replace_noop, replace_match by assumption. reflexivity.
Qed.

(** No occurrence of [old] survives when none can overlap a [new]. *)
Lemma replace_eliminates (s : str) :
  overlappable new old = false -> contains old (replace old new s) = false.
Proof.
  intros Ho. pattern s.
  apply (replace_occurrence_ind old new old_nonempty); clear s.
  - intros s Hs. rewrite replace_noop by assumption. exact Hs.
  - intros g r Hg IH ->. rewrite contains_app3, Hg, IH by exact Ho. reflexivity.
Qed.

(** The replacement creates no occurrence of an [x] that cannot overlap a
    [new]. *)
Lemma replace_creates_none (x s : str) :
  overlappable new x = false ->
  contains x s = false -> contains x (replace old new s) = false.
Proof.
  intros Ho. pattern s.
  apply (replace_occurrence_ind old new old_nonempty); clear s.
  - intros s Hs Hx. rewrite replace_noop by assumption. exact Hx.
  - intros g r Hg IH -> Hx.
    assert (Hxg : contains x g = false).
    { destruct (contains x g) eqn:E; [|reflexivity].
      rewrite (contains_app_l _ _ (old ++ r) E) in Hx. discriminate. }
    assert (Hxr : contains x r = false).
    { destruct (contains x r) eqn:E; [|reflexivity].
      rewrite app_assoc in Hx.
      rewrite (contains_app_r _ (g ++ old) _ E) in Hx. discriminate. }
    rewrite contains_app3, Hxg, IH by assumption. reflexivity.
Qed.

End NoOverlapConsequences.

(** ** Counting occurrences *)

Section Counting.

Variable x : str.
Hypothesis x_nonempty : x <> [].

Lemma count_nil : count_occurrences x [] = 0.
Proof. simpl. destruct x; [contradiction | reflexivity]. Qed.

Lemma count_cons (c : char) (s : str) :
  count_occurrences x (c :: s) =
  (if startswith x (c :: s) then 1 else 0) + count_occurrences x s.
Proof. reflexivity. Qed.

Lemma count_app_no_straddle (a b : str) :
  no_straddle x a b ->
  count_occurrences x (a ++ b) = count_occurrences x a + count_occurrences x b.
Proof.
  induction a as [|c a IH]; intros NS.
  - rewrite count_nil. reflexivity.
  - change ((c :: a) ++ b) with (c :: (a ++ b)).
    rewrite !count_cons, IH.
    + assert (E : startswith x (c :: a ++ b) = startswith x (c :: a)).
      { destruct (startswith x (c :: a)) eqn:E1.
        - apply (startswith_mono _ _ b E1).
        - destruct (startswith x (c :: a ++ b)) eqn:E2; [|reflexivity].
          rewrite <- E1. symmetry.
          apply (NS [] (c :: a)); [reflexivity | discriminate | exact E2]. }
      rewrite E. lia.
    + intros u w -> Hw. apply (NS (c :: u) w); [reflexivity | exact Hw].
Qed.

Lemma count_through (sep v : str) :
  clash_inside sep x = false ->
  count_occurrences x (sep ++ v) = count_occurrences x v.
Proof.
  intros Hc.
  enough (H : forall w u, sep = u ++ w ->
            count_occurrences x (w ++ v) = count_occurrences x v)
    by (apply (H sep []); reflexivity).
  induction w as [|c w IH]; intros u Hsep; [reflexivity|].
  change ((c :: w) ++ v) with (c :: (w ++ v)).
  rewrite count_cons.
  change (c :: (w ++ v)) with ((c :: w) ++ v).
  rewrite (clash_inside_no_start sep x Hc u (c :: w) v Hsep) by discriminate.
  simpl. apply (IH (u ++ [c])). rewrite Hsep, <- app_assoc. reflexivity.
Qed.

Lemma count_app3 (sep u v : str) :
  overlappable sep x = false ->
  count_occurrences x (u ++ sep ++ v) =
  count_occurrences x u + count_occurrences x v.
Proof.
  intros Ho. apply overlappable_false in Ho as [Hi Hb].
  rewrite count_app_no_straddle by (apply clash_before_no_straddle, Hb).
  rewrite count_through by exact Hi. reflexivity.
Qed.

(** Replacing [old] by [new] neither creates nor destroys an occurrence of
    an [x] that overlaps neither. *)
Lemma replace_preserves_count (old new s : str) :
  old <> [] ->
  overlappable new x = false -> overlappable old x = false ->
  count_occurrences x (replace old new s) = count_occurrences x s.
Proof.
  intros Hold Hn Ho. pattern s.
  apply (replace_occurrence_ind old new Hold); clear s.
  - intros s Hs. rewrite replace_noop by assumption. reflexivity.
  - intros g r Hg IH ->. rewrite !count_app3, IH by assumption. reflexivity.
Qed.

End Counting.

(** ** Two substitutions *)

Section Commute.

Variables old1 new1 old2 new2 : str.
Hypothesis old1_nonempty : old1 <> [].
Hypothesis old2_nonempty : old2 <> [].
Hypothesis old1_border_free : border_free old1 = true.
Hypothesis new1_old2 : overlappable new1 old2 = false.
Hypothesis old1_old2 : overlappable old1 old2 = false.
Hypothesis new2_old1 : overlappable new2 old1 = false.

Lemma replace_commute (s : str) :
  replace old2 new2 (replace old1 new1 s) =
  replace old1 new1 (replace old2 new2 s).
Proof.
  pattern s. apply (replace_occurrence_ind old1 new1 old1_nonempty); clear s.
  - intros s Hs. rewrite (replace_noop old1 new1 old1_nonempty s Hs).
    symmetry. apply replace_noop; [exact old1_nonempty|].
    apply replace_creates_none; assumption.
  - intros g r Hg IH ->.
    rewrite !replace_app3 by assumption.
    rewrite replace_first; [| exact old1_nonempty | exact old1_border_free |].
    + rewrite IH. reflexivity.
    + apply replace_creates_none; assumption.
Qed.

End Commute.

(** ** Lengths *)

Section Lengths.

Variables old new : str.
Hypothesis old_nonempty : old <> [].

Lemma replace_length_le (s : str) :
  length new <= length old -> length (replace old new s) <= length s.
Proof.
  intros Hl. pattern s.
  apply (replace_occurrence_ind old new old_nonempty); clear s.
  - intros s Hs. rewrite replace_noop by assumption. lia.
  - intros g r _ IH ->. rewrite !length_app. lia.
Qed.

Lemma replace_length_lt (s : str) :
  length new < length old -> contains old s = true ->
  length (replace old new s) < length s.
Proof.
  intros Hl Hs.
  destruct (replace_first_occurrence old new old_nonempty s)
    as [H | (g & r & -> & _ & ->)]; [congruence|].
  pose proof (replace_length_le r ltac:(lia)).
  rewrite !length_app. lia.
Qed.

End Lengths.

(** ** The scan against the index-by-index substitution *)

Section Refinement.

Variables old new : str.
Hypothesis old_nonempty : old <> [].
Hypothesis old_border_free : border_free old = true.

Lemma old_length_pos : 0 < length old.
Proof. destruct old; [contradiction | simpl; lia]. Qed.

(** Two occurrences of a border-free text do not overlap. *)
Lemma occurrences_disjoint (s : str) (j j' : nat) :
  occurs_at old s j = true -> occurs_at old s j' = true ->
  j < j' -> j' < j + length old -> False.
Proof.
  unfold occurs_at. intros Hj Hj' Hlt Hov.
  apply startswith_inv in Hj as [t Ht].
  replace j' with (j + (j' - j)) in Hj' by lia.
  rewrite <- drop_drop, Ht, drop_app_le in Hj' by lia.
  apply startswith_agree in Hj'. rewrite agree_sym in Hj'.
  apply negb_true_iff in old_border_free.
  assert (Hex : clash_before old old = true); [|congruence].
  apply existsb_exists. exists (j' - j). split; [|exact Hj'].
  apply in_seq. lia.
Qed.

Lemma part_of_occurrence_intro (s : str) (i j : nat) :
  occurs_at old s j = true -> j <= i -> i < j + length old ->
  part_of_occurrence old s i = true.
Proof.
  intros Hj Hle Hlt. apply existsb_exists. exists j. split.
  - apply in_seq. lia.
  - rewrite Hj. simpl. apply Nat.ltb_lt. exact Hlt.
Qed.

Lemma part_of_occurrence_none (s : str) (i : nat) :
  (forall j, j <= i -> occurs_at old s j = true -> j + length old <= i) ->
  part_of_occurrence old s i = false.
Proof.
  intros H. apply not_true_iff_false. intros Hex.
  apply existsb_exists in Hex as (j & Hin & Hj).
  apply in_seq in Hin. apply andb_true_iff in Hj as [Hocc Hlt].
  apply Nat.ltb_lt in Hlt. specialize (H j ltac:(lia) Hocc). lia.
Qed.

Lemma replace_loop_substitute (s suf pre : str) (k : nat) :
  s = pre ++ suf -> scan_invariant old s (length pre) k ->
  replace_loop old new k suf =
  flat_map (substitute_at old new s) (seq (length pre) (length suf)).
Proof.
  revert pre k. induction suf as [|c suf IH]; intros pre k Hs Inv.
  - reflexivity.
  - assert (Hs' : s = (pre ++ [c]) ++ suf)
      by (rewrite Hs, <- app_assoc; reflexivity).
    assert (Hlen : length (pre ++ [c]) = S (length pre))
      by (rewrite length_app; simpl; lia).
    assert (Hhere : drop (length pre) s = c :: suf)
      by (rewrite Hs; apply drop_app_length).
    pose proof old_length_pos as Hpos.
    change (length (c :: suf)) with (S (length suf)).
    rewrite <- cons_seq. cbn [flat_map].
    specialize (IH (pre ++ [c])). rewrite Hlen in IH.
    unfold substitute_at at 1.
    destruct k as [|k].
    + (* scanning *)
      cbn [scan_invariant] in Inv.
      rewrite replace_loop_0.
      unfold occurs_at at 1. rewrite Hhere.
      destruct (startswith old (c :: suf)) eqn:Hm.
      * (* a match: [new] is written, the matched characters are passed *)
        assert (Hocc : occurs_at old s (length pre) = true)
          by (unfold occurs_at; rewrite Hhere; exact Hm).
        rewrite (part_of_occurrence_intro s (length pre) (length pre))
          by (try exact Hocc; lia).
        rewrite app_nil_r. f_equal.
        apply IH; [exact Hs'|].
        destruct (length old - 1) as [|m] eqn:Hm1; cbn [scan_invariant].
        -- intros j Hj _. lia.
        -- exists (length pre). repeat split; [lia | lia | exact Hocc].
      * (* no match: the character is copied *)
        rewrite part_of_occurrence_none.
        -- cbn [take app]. f_equal.
           apply IH; [exact Hs'|]. cbn [scan_invariant].
           intros j Hj Hocc.
           destruct (Nat.eq_dec j (length pre)) as [->|Hne].
           ++ unfold occurs_at in Hocc. rewrite Hhere in Hocc. congruence.
           ++ specialize (Inv j ltac:(lia) Hocc). lia.
        -- intros j Hj Hocc.
           destruct (Nat.eq_dec j (length pre)) as [->|Hne].
           ++ unfold occurs_at in Hocc. rewrite Hhere in Hocc. congruence.
           ++ apply Inv; [lia | exact Hocc].
    + (* passing over a matched character *)
      cbn [scan_invariant] in Inv. destruct Inv as (j0 & Hend & Hlt & Hocc).
      cbn [replace_loop].
      assert (Hno : occurs_at old s (length pre) = false).
      { destruct (occurs_at old s (length pre)) eqn:E; [exfalso | reflexivity].
        apply (occurrences_disjoint s j0 (length pre) Hocc E); lia. }
      rewrite Hno.
      rewrite (part_of_occurrence_intro s (length pre) j0)
        by (try exact Hocc; lia).
      cbn [app]. apply IH; [exact Hs'|].
      destruct k as [|k]; cbn [scan_invariant].
      * intros j Hj Hoccj.
        destruct (le_lt_dec j j0) as [Hle|Hgt]; [lia|].
        exfalso. apply (occurrences_disjoint s j0 j Hocc Hoccj); lia.
      * exists j0. repeat split; [lia | lia | exact Hocc].
Qed.

(** [replace] does what the words say, for a border-free [old]. *)
Lemma replace_substitute_every (s : str) :
  replace old new s = substitute_every old new s.
Proof.
  rewrite replace_eq by exact old_nonempty.
  apply (replace_loop_substitute s s []); [reflexivity|].
  cbn [scan_invariant]. intros j Hj. simpl in Hj. lia.
Qed.

End Refinement.

(* ================================================================== *)
(** * The script *)

(** ** The four literals

    Checked by evaluation: the targets are non-empty and border-free, and no
    target can overlap the other target or either replacement text. *)

Lemma completion_old_nonempty : completion_old <> [].
Proof. intros H. apply (f_equal length) in H. vm_compute in H. discriminate. Qed.

Lemma value_old_nonempty : value_old <> [].
Proof. intros H. apply (f_equal length) in H. vm_compute in H. discriminate. Qed.

Lemma completion_old_border_free : border_free completion_old = true.
Proof. vm_compute. reflexivity. Qed.

Lemma value_old_border_free : border_free value_old = true.
Proof. vm_compute. reflexivity. Qed.

Lemma completion_new_vs_completion_old :
  overlappable completion_new completion_old = false.
Proof. vm_compute. reflexivity. Qed.

Lemma completion_new_vs_value_old :
  overlappable completion_new value_old = false.
Proof. vm_compute. reflexivity. Qed.

Lemma value_new_vs_completion_old :
  overlappable value_new completion_old = false.
Proof. vm_compute. reflexivity. Qed.

Lemma value_new_vs_value_old : overlappable value_new value_old = false.
Proof. vm_compute. reflexivity. Qed.

Lemma completion_old_vs_value_old :
  overlappable completion_old value_old = false.
Proof. vm_compute. reflexivity. Qed.

Lemma value_old_vs_completion_old :
  overlappable value_old completion_old = false.
Proof. vm_compute. reflexivity. Qed.

Lemma literal_lengths :
  length completion_old = 75 /\ length completion_new = 46 /\
  length value_old = 64 /\ length value_new = 39.
Proof. vm_compute. auto. Qed.

(** ** What the written text contains *)

Lemma first_substitution_clears (content : str) :
  contains completion_old (first_substitution content) = false.
Proof.
  apply replace_eliminates;
    [exact completion_old_nonempty | exact completion_new_vs_completion_old].
Qed.

Lemma transform_without_completion_old (content : str) :
  contains completion_old (transform content) = false.
Proof.
  apply replace_creates_none;
    [exact value_old_nonempty | exact value_new_vs_completion_old |].
  apply first_substitution_clears.
Qed.

Lemma transform_without_value_old (content : str) :
  contains value_old (transform content) = false.
Proof.
  apply replace_eliminates;
    [exact value_old_nonempty | exact value_new_vs_value_old].
Qed.

Lemma transform_noop (content : str) :
  contains completion_old content = false ->
  contains value_old content = false ->
  transform content = content.
Proof.
  intros H1 H2. unfold transform, first_substitution, second_substitution.
  rewrite (replace_noop _ _ completion_old_nonempty content H1).
  apply replace_noop; [exact value_old_nonempty | exact H2].
Qed.

Lemma transform_idempotent (content : str) :
  transform (transform content) = transform content.
Proof.
  apply transform_noop.
  - apply transform_without_completion_old.
  - apply transform_without_value_old.
Qed.

(** ** Runs *)

Lemma run_missing (fs : gmap string file) :
  fs !! target_path = None -> run fs = (inl FileNotFoundError, State fs []).
Proof.
  intros H. unfold run, main, mbind, M_bind, read_text. simpl. rewrite H.
  reflexivity.
Qed.

Lemma run_unreadable (fs : gmap string file) (f : file) :
  fs !! target_path = Some f -> readable f = false ->
  run fs = (inl PermissionError, State fs []).
Proof.
  intros H Hr. unfold run, main, mbind, M_bind, read_text. simpl.
  rewrite H, Hr. reflexivity.
Qed.

Lemma run_unwritable (fs : gmap string file) (f : file) :
  fs !! target_path = Some f -> readable f = true -> writable f = false ->
  run fs = (inl PermissionError, State fs []).
Proof.
  intros H Hr Hw. unfold run, main, mbind, M_bind, read_text, write_text.
  simpl. rewrite H, Hr. simpl. rewrite H, Hw. reflexivity.
Qed.

(** A run that can read and write the file stores [transform] of its text
    and prints the confirmation line. *)
Lemma run_ok (fs : gmap string file) (f : file) :
  fs !! target_path = Some f -> readable f = true -> writable f = true ->
  run fs =
  (inr tt,
   State (<[target_path := File true true (transform (text f))]> fs)
         (confirmation ++ [10%N])).
Proof.
  intros H Hr Hw.
  unfold run, main, mbind, M_bind, read_text, write_text, print.
  simpl. rewrite H, Hr. simpl. rewrite H, Hw, Hr. reflexivity.
Qed.

Lemma outcome_ok_inv (fs : gmap string file) :
  outcome fs = inr tt ->
  exists f, fs !! target_path = Some f /\ readable f = true /\ writable f = true.
Proof.
  unfold outcome. intros H.
  destruct (fs !! target_path) as [f|] eqn:E.
  - destruct (readable f) eqn:Hr.
    + destruct (writable f) eqn:Hw; [eauto|].
      rewrite (run_unwritable fs f E Hr Hw) in H. discriminate.
    + rewrite (run_unreadable fs f E Hr) in H. discriminate.
  - rewrite (run_missing fs E) in H. discriminate.
Qed.

(** ** Exact matching *)









(* ================================================================== *)
(** * The specification's claims *)

(** ** Evaluations *)

Example replace_leftmost :
  replace (lit "aa") (lit "b") (lit "aaaxaa") = lit "baxb".
Proof. reflexivity. Qed.

Example replace_empty_old :
  replace (lit "") (lit "-") (lit "abc") = lit "-a-b-c-".
Proof. reflexivity. Qed.

(** For a text with a border the scan and the index-by-index reading part:
    the refinement below needs border-freeness. *)
Example substitute_every_overlapping :
  substitute_every (lit "aa") (lit "b") (lit "aaa") = lit "bb" /\
  replace (lit "aa") (lit "b") (lit "aaa") = lit "ba".
Proof. split; reflexivity. Qed.

Example transform_both :
  transform (lit "x" ++ completion_old ++ lit "y" ++ value_old ++ lit "z")
  = lit "x" ++ completion_new ++ lit "y" ++ value_new ++ lit "z".
Proof. vm_compute. reflexivity. Qed.

(** ** C1 *)

(** C1, as amended.  For every input file content, the first substitution
    replaces every occurrence of the first target by its replacement and
    leaves every character that is not part of such an occurrence unchanged;
    when the content holds no occurrence of the second target, this is the
    text the script writes. *)
Theorem first_target_replaced_everywhere (content : str) :
  first_substitution content =
    substitute_every completion_old completion_new content /\
  (contains value_old content = false ->
   transform content =
     substitute_every completion_old completion_new content).
Proof.
  assert (H : first_substitution content =
              substitute_every completion_old completion_new content).
  { apply replace_substitute_every;
      [exact completion_old_nonempty | exact completion_old_border_free]. }
  split; [exact H|]. intros Hv. rewrite <- H.
  apply replace_noop; [exact value_old_nonempty|].
  apply replace_creates_none;
    [exact completion_old_nonempty | exact completion_new_vs_value_old
    | exact Hv].
Qed.

Lemma first_target_replaced_everywhere_witness :
  contains value_old sample_content = false /\
  transform sample_content =
    substitute_every completion_old completion_new sample_content.
Proof.
  split; [vm_compute; reflexivity|].
  apply (proj2 (first_target_replaced_everywhere sample_content)).
  vm_compute. reflexivity.
Defined.

(** C1 as stated fails: a content that is the second target has no
    occurrence of the first target, so every character of it would have to
    be unchanged in the written output; the script writes the second
    replacement text instead. *)
Lemma second_target_rewritten_outside_first :
  count_occurrences completion_old value_old = 0 /\
  substitute_every completion_old completion_new value_old = value_old /\
  transform value_old = value_new /\
  files_after {[ target_path := File true true value_old ]} !! target_path =
    Some (File true true value_new) /\
  transform value_old <>
    substitute_every completion_old completion_new value_old.
Proof.
  repeat split; try (vm_compute; reflexivity).
  intros H. apply (f_equal length) in H. vm_compute in H. discriminate.
Qed.

(** ** C2 *)

(** C2, as amended.  For every input file content, the second substitution
    replaces every occurrence of the second target in the text left by the
    first substitution and leaves every other character of that text
    unchanged; the first substitution neither adds nor removes occurrences
    of the second target; and when the content holds no occurrence of the
    first target, the written text is the content with every occurrence of
    the second target replaced and all else unchanged. *)
Theorem second_target_replaced_everywhere (content : str) :
  transform content =
    substitute_every value_old value_new (first_substitution content) /\
  count_occurrences value_old (first_substitution content) =
    count_occurrences value_old content /\
  (contains completion_old content = false ->
   transform content = substitute_every value_old value_new content).
Proof.
  assert (H : forall s, second_substitution s =
                        substitute_every value_old value_new s).
  { intros s. apply replace_substitute_every;
      [exact value_old_nonempty | exact value_old_border_free]. }
  split; [apply H|]. split.
  - apply replace_preserves_count;
      [exact value_old_nonempty | exact completion_old_nonempty
      | exact completion_new_vs_value_old | exact completion_old_vs_value_old].
  - intros Hc. unfold transform, first_substitution.
    rewrite (replace_noop _ _ completion_old_nonempty content Hc). apply H.
Qed.

Lemma second_target_replaced_everywhere_witness :
  contains completion_old sample_value_content = false /\
  transform sample_value_content =
    substitute_every value_old value_new sample_value_content.
Proof.
  split; [vm_compute; reflexivity|].
  apply (proj2 (proj2 (second_target_replaced_everywhere sample_value_content))).
  vm_compute. reflexivity.
Defined.

(** C2 as stated fails: a content that is the first target has no
    occurrence of the second target, yet the written text differs from it. *)
Lemma first_target_rewritten_outside_second :
  count_occurrences value_old completion_old = 0 /\
  substitute_every value_old value_new completion_old = completion_old /\
  transform completion_old = completion_new /\
  files_after {[ target_path := File true true completion_old ]} !! target_path =
    Some (File true true completion_new) /\
  transform completion_old <>
    substitute_every value_old value_new completion_old.
Proof.
  repeat split; try (vm_compute; reflexivity).
  intros H. apply (f_equal length) in H. vm_compute in H. discriminate.
Qed.

(** ** C3 *)

(** C3.  Running the script twice leaves the same files as running it once:
    the written text is a fixed point of the two substitutions, and a second
    run on the files left by a first run changes nothing. *)
Theorem run_twice_same_as_once :
  (forall content : str, transform (transform content) = transform content) /\
  (forall fs : gmap string file, files_after (files_after fs) = files_after fs).
Proof.
  split; [exact transform_idempotent|].
  intros fs. unfold files_after.
  destruct (fs !! target_path) as [f|] eqn:E.
  - destruct (readable f) eqn:Hr.
    + destruct (writable f) eqn:Hw.
      * rewrite (run_ok fs f E Hr Hw). cbn [snd files].
        erewrite run_ok; [| apply lookup_insert_eq | reflexivity | reflexivity].
        cbn [snd files text].
        rewrite insert_insert_eq, transform_idempotent. reflexivity.
      * rewrite (run_unwritable fs f E Hr Hw). cbn [snd files].
        rewrite (run_unwritable fs f E Hr Hw). reflexivity.
    + rewrite (run_unreadable fs f E Hr). cbn [snd files].
      rewrite (run_unreadable fs f E Hr). reflexivity.
  - rewrite (run_missing fs E). cbn [snd files].
    rewrite (run_missing fs E). reflexivity.
Qed.

(** ** C4 *)

(** C4.  If the target path does not exist, or the file cannot be read, the
    read raises and the run ends with that error: no file is written or
    created, the file system is as before, and nothing is printed.  The write
    step is reached only after a successful read. *)
Theorem read_failure_aborts_before_write (fs : gmap string file) :
  (fs !! target_path = None \/
   exists f, fs !! target_path = Some f /\ readable f = false) ->
  exists e,
    read_text target_path (State fs []) = (inl e, State fs []) /\
    run fs = (inl e, State fs []) /\
    files_after fs = fs /\
    (fs !! target_path = None ->
     e = FileNotFoundError /\ files_after fs !! target_path = None).
Proof.
  intros [H | (f & H & Hr)].
  - exists FileNotFoundError. unfold files_after.
    rewrite (run_missing fs H). unfold read_text. cbn [files snd].
    rewrite H. do 3 (split; [reflexivity|]).
    intros _. split; reflexivity.
  - exists PermissionError. unfold files_after.
    rewrite (run_unreadable fs f H Hr). unfold read_text. cbn [files snd].
    rewrite H, Hr. do 3 (split; [reflexivity|]). congruence.
Qed.

Lemma read_failure_aborts_before_write_witness :
  exists e,
    read_text target_path (State ∅ []) = (inl e, State ∅ []) /\
    run ∅ = (inl e, State ∅ []) /\
    files_after ∅ = ∅ /\
    ((∅ : gmap string file) !! target_path = None ->
     e = FileNotFoundError /\ files_after ∅ !! target_path = None).
Proof.
  apply (read_failure_aborts_before_write ∅). left. reflexivity.
Defined.

(** ** C5 *)



(** ** C6 *)

(** C6.  Whenever the read and the write succeed, the run ends normally and
    standard output holds exactly the confirmation text and its newline,
    whatever the file's text is and whether or not a target occurs in it. *)
Theorem confirmation_printed_on_success (fs : gmap string file) (f : file) :
  fs !! target_path = Some f -> readable f = true -> writable f = true ->
  outcome fs = inr tt /\
  printed fs = lit "Fixed ProfileView.swift compilation errors" ++ [10%N].
Proof.
  intros H Hr Hw. unfold outcome, printed.
  rewrite (run_ok fs f H Hr Hw). split; reflexivity.
Qed.

Lemma confirmation_printed_on_success_witness :
  outcome plain_fs = inr tt /\
  printed plain_fs = lit "Fixed ProfileView.swift compilation errors" ++ [10%N].
Proof.
  apply (confirmation_printed_on_success plain_fs
           (File true true plain_content)); vm_compute; reflexivity.
Defined.

(** ** C7 *)



(** ** C8 *)



(** ** C9 *)

(** C9.  The two substitutions commute on every content.  Neither target can
    overlap the other, and neither substitution adds or removes an
    occurrence of the other target. *)
Theorem substitutions_commute (content : str) :
  second_substitution (first_substitution content) =
    first_substitution (second_substitution content) /\
  overlappable completion_old value_old = false /\
  overlappable value_old completion_old = false /\
  count_occurrences value_old (first_substitution content) =
    count_occurrences value_old content /\
  count_occurrences completion_old (second_substitution content) =
    count_occurrences completion_old content.
Proof.
  split; [|split; [|split; [|split]]].
  - apply replace_commute.
    + exact completion_old_nonempty.
    + exact value_old_nonempty.
    + exact completion_old_border_free.
    + exact completion_new_vs_value_old.
    + exact completion_old_vs_value_old.
    + exact value_new_vs_completion_old.
  - exact completion_old_vs_value_old.
  - exact value_old_vs_completion_old.
  - apply replace_preserves_count;
      [exact value_old_nonempty | exact completion_old_nonempty
      | exact completion_new_vs_value_old | exact completion_old_vs_value_old].
  - apply replace_preserves_count;
      [exact completion_old_nonempty | exact value_old_nonempty
      | exact value_new_vs_completion_old | exact value_old_vs_completion_old].
Qed.

(** ** C10 *)

(** C10.  The written text is never longer than the text read, and it has
    the same length exactly when neither target occurs in the text read;
    each replacement text is strictly shorter than its target. *)
Theorem written_text_never_longer (content : str) :
  length (transform content) <= length content /\
  (length (transform content) = length content <->
   contains completion_old content = false /\
   contains value_old content = false) /\
  length completion_new < length completion_old /\
  length value_new < length value_old.
Proof.
  destruct literal_lengths as (L1 & L2 & L3 & L4).
  rewrite L1, L2, L3, L4.
  enough (length (transform content) <= length content /\
          (length (transform content) = length content <->
           contains completion_old content = false /\
           contains value_old content = false)) by (intuition lia).
  assert (H1 : length (first_substitution content) <= length content).
  { apply replace_length_le; [exact completion_old_nonempty|].
    rewrite L1, L2. lia. }
  assert (H2 : length (transform content) <=
               length (first_substitution content)).
  { apply replace_length_le; [exact value_old_nonempty|].
    rewrite L3, L4. lia. }
  split; [lia|]. split.
  - intros E.
    destruct (contains completion_old content) eqn:E1.
    { pose proof (replace_length_lt completion_old completion_new
                    completion_old_nonempty content) as Hlt.
      fold (first_substitution content) in Hlt.
      rewrite L1, L2 in Hlt. specialize (Hlt ltac:(lia) E1). lia. }
    split; [reflexivity|].
    destruct (contains value_old content) eqn:E2; [exfalso | reflexivity].
    pose proof (replace_length_lt value_old value_new
                  value_old_nonempty content) as Hlt.
    rewrite L3, L4 in Hlt. specialize (Hlt ltac:(lia) E2).
    unfold transform, first_substitution, second_substitution in E.
    rewrite (replace_noop _ _ completion_old_nonempty content E1) in E. lia.
  - intros [E1 E2]. rewrite (transform_noop _ E1 E2). reflexivity.
Qed.

Lemma written_text_never_longer_witness :
  length (transform plain_content) = length plain_content /\
  contains completion_old sample_content = true /\
  length (transform sample_content) < length sample_content.
Proof.
  split; [|split].
  - apply (proj2 (proj1 (proj2 (written_text_never_longer plain_content)))).
    split; vm_compute; reflexivity.
  - vm_compute. reflexivity.
  - destruct (written_text_never_longer sample_content) as (Hle & Hiff & _).
    destruct (Nat.eq_dec (length (transform sample_content))
                         (length sample_content)) as [E|E]; [|lia].
    apply Hiff in E as [E _]. vm_compute in E. discriminate.
Defined.

(* ================================================================== *)
(** * Further properties of the script *)

(** ** Occurrence counts and lengths *)

Section ExactLength.

Variables old new : str.
Hypothesis old_nonempty : old <> [].
Hypothesis old_border_free : border_free old = true.

Lemma count_absent (s : str) :
  contains old s = false -> count_occurrences old s = 0.
Proof.
  induction s as [|c s IH]; intros H.
  - apply count_nil, old_nonempty.
  - rewrite contains_cons in H. apply orb_false_iff in H as [H1 H2].
    rewrite count_cons, H1, IH by exact H2. reflexivity.
Qed.

Lemma count_inside_match (r w u : str) :
  old = u ++ w -> u <> [] ->
  count_occurrences old (w ++ r) = count_occurrences old r.
Proof.
  revert u. induction w as [|c w IH]; intros u Hold Hu; [reflexivity|].
  change ((c :: w) ++ r) with (c :: (w ++ r)). rewrite count_cons.
  change (c :: (w ++ r)) with ((c :: w) ++ r).
  destruct (startswith old ((c :: w) ++ r)) eqn:Hm.
  - exfalso. apply startswith_agree in Hm. rewrite agree_sym in Hm.
    pose proof old_border_free as Hb. apply negb_true_iff in Hb.
    assert (Hex : clash_before old old = true); [|congruence].
    apply existsb_exists. exists (length u). split.
    + pose proof (f_equal length Hold) as Hl.
      rewrite length_app in Hl. simpl in Hl.
      apply in_seq. destruct u; [contradiction | simpl in *; lia].
    + replace (drop (length u) old) with (c :: w); [exact Hm|].
      rewrite Hold, drop_app_length. reflexivity.
  - simpl. apply (IH (u ++ [c])).
    + rewrite Hold, <- app_assoc. reflexivity.
    + destruct u; discriminate.
Qed.

Lemma count_match (r : str) :
  count_occurrences old (old ++ r) = S (count_occurrences old r).
Proof.
  assert (exists a o, old = a :: o) as (a & o & E)
    by (destruct old; [contradiction | eauto]).
  assert (Hs : old ++ r = a :: (o ++ r)) by (rewrite E; reflexivity).
  rewrite Hs, count_cons, <- Hs, startswith_app.
  rewrite (count_inside_match r o [a]); [reflexivity | exact E | discriminate].
Qed.

Lemma count_first (g r : str) :
  contains old g = false ->
  count_occurrences old (g ++ old ++ r) = S (count_occurrences old r).
Proof.
  intros Hg. pose proof old_border_free as Hb. apply negb_true_iff in Hb.
  rewrite count_app_no_straddle;
    [| exact old_nonempty | apply clash_before_no_straddle, Hb].
  rewrite count_absent, count_match by exact Hg. reflexivity.
Qed.

(** Each occurrence trades [length old] characters for [length new]. *)
Lemma replace_length_exact (s : str) :
  length (replace old new s) + length old * count_occurrences old s =
  length s + length new * count_occurrences old s.
Proof.
  pattern s. apply (replace_occurrence_ind old new old_nonempty); clear s.
  - intros s Hs. rewrite replace_noop, count_absent by assumption. lia.
  - intros g r Hg IH ->. rewrite count_first by exact Hg.
    rewrite !length_app, !Nat.mul_succ_r. lia.
Qed.

End ExactLength.

(** ** A character foreign to a text cannot be overlapped by it *)

Lemma foreign_char_no_overlap (c : char) (x : str) :
  x <> [] -> c ∉ x -> overlappable [c] x = false.
Proof.
  intros Hx Hc. apply orb_false_iff. split.
  - destruct x as [|y x']; [contradiction|].
    cbn. rewrite orb_false_r, andb_true_r.
    apply N.eqb_neq. intros ->. apply Hc. left.
  - apply not_true_iff_false. intros Hex.
    apply existsb_exists in Hex as (k & Hin & Hk).
    apply in_seq in Hin.
    destruct (x !! k) as [y|] eqn:Hy.
    + assert (Hyx : y ∈ x) by (eapply list_elem_of_lookup_2; exact Hy).
      rewrite (drop_S x y k Hy) in Hk. cbn in Hk.
      apply andb_true_iff in Hk as [Hk _]. apply N.eqb_eq in Hk.
      subst y. exact (Hc Hyx).
    + apply lookup_ge_None in Hy. lia.
Qed.

(** ** How a target site is written *)

Lemma transform_completion_old_site (u v : str) :
  transform (u ++ completion_old ++ v) =
  transform u ++ completion_new ++ transform v.
Proof.
  unfold transform, first_substitution, second_substitution.
  pose proof completion_old_border_free as Hb. apply negb_true_iff in Hb.
  rewrite (replace_app completion_old completion_new completion_old_nonempty
             u (completion_old ++ v))
    by (apply clash_before_no_straddle, Hb).
  rewrite replace_match by exact completion_old_nonempty.
  apply replace_app3;
    [exact value_old_nonempty | exact completion_new_vs_value_old].
Qed.

Lemma transform_value_old_site (u v : str) :
  transform (u ++ value_old ++ v) =
  transform u ++ value_new ++ transform v.
Proof.
  unfold transform, first_substitution, second_substitution.
  pose proof value_old_border_free as Hb. apply negb_true_iff in Hb.
  rewrite (replace_app3 value_old completion_old completion_new u v
             completion_old_nonempty value_old_vs_completion_old).
  rewrite (replace_app value_old value_new value_old_nonempty)
    by (apply clash_before_no_straddle, Hb).
  rewrite replace_match by exact value_old_nonempty. reflexivity.
Qed.

Lemma transform_completion_new_site (u v : str) :
  transform (u ++ completion_new ++ v) =
  transform u ++ completion_new ++ transform v.
Proof.
  unfold transform, first_substitution, second_substitution.
  rewrite (replace_app3 completion_new completion_old completion_new u v
             completion_old_nonempty completion_new_vs_completion_old).
  apply replace_app3;
    [exact value_old_nonempty | exact completion_new_vs_value_old].
Qed.

Lemma transform_value_new_site (u v : str) :
  transform (u ++ value_new ++ v) =
  transform u ++ value_new ++ transform v.
Proof.
  unfold transform, first_substitution, second_substitution.
  rewrite (replace_app3 value_new completion_old completion_new u v
             completion_old_nonempty value_new_vs_completion_old).
  apply replace_app3;
    [exact value_old_nonempty | exact value_new_vs_value_old].
Qed.

(** ** X1 *)



(** ** X2 *)

(** X2.  A run neither creates nor removes a file, and it leaves the
    target's access flags as they were. *)
Theorem run_keeps_paths_and_flags (fs : gmap string file) :
  dom (files_after fs) = dom fs /\
  readable <$> (files_after fs !! target_path) =
    readable <$> (fs !! target_path) /\
  writable <$> (files_after fs !! target_path) =
    writable <$> (fs !! target_path).
Proof.
  unfold files_after.
  destruct (fs !! target_path) as [f|] eqn:E.
  - destruct (readable f) eqn:Hr.
    + destruct (writable f) eqn:Hw.
      * rewrite (run_ok fs f E Hr Hw). cbn [snd files].
        rewrite lookup_insert_eq. cbn. rewrite Hr, Hw.
        split; [|split; reflexivity].
        apply dom_insert_lookup_L. rewrite E. eauto.
      * rewrite (run_unwritable fs f E Hr Hw). cbn [snd files].
        rewrite E. repeat split.
    + rewrite (run_unreadable fs f E Hr). cbn [snd files].
      rewrite E. repeat split.
  - rewrite (run_missing fs E). cbn [snd files]. rewrite E. repeat split.
Qed.

(** ** X3 *)

(** X3.  When the target can be read but not opened for writing, the read
    returns its text, the write raises [PermissionError], and the run ends
    with that error: the file keeps its text and nothing is printed. *)
Theorem write_failure_leaves_everything (fs : gmap string file) (f : file) :
  fs !! target_path = Some f -> readable f = true -> writable f = false ->
  read_text target_path (State fs []) = (inr (text f), State fs []) /\
  write_text target_path (transform (text f)) (State fs []) =
    (inl PermissionError, State fs []) /\
  run fs = (inl PermissionError, State fs []).
Proof.
  intros H Hr Hw. split; [|split].
  - unfold read_text. cbn [files]. rewrite H, Hr. reflexivity.
  - unfold write_text. cbn [files]. rewrite H, Hw. reflexivity.
  - unfold run, main, mbind, M_bind, read_text, write_text.
    simpl. rewrite H, Hr. simpl. rewrite H, Hw. reflexivity.
Qed.

Lemma write_failure_leaves_everything_witness :
  read_text target_path (State locked_fs []) =
    (inr both_content, State locked_fs []) /\
  write_text target_path (transform both_content) (State locked_fs []) =
    (inl PermissionError, State locked_fs []) /\
  run locked_fs = (inl PermissionError, State locked_fs []).
Proof.
  apply (write_failure_leaves_everything locked_fs
           (File true false both_content)); vm_compute; reflexivity.
Defined.

(** ** X4 *)



(** ** X5 *)



(** ** X6 *)

(** X6.  After a run that ends normally, the target file holds no
    occurrence of either target substring. *)
Theorem written_file_free_of_targets (fs : gmap string file) :
  outcome fs = inr tt ->
  exists f, files_after fs !! target_path = Some f /\
            contains completion_old (text f) = false /\
            contains value_old (text f) = false.
Proof.
  intros H. apply outcome_ok_inv in H as (f & E & Hr & Hw).
  exists (File true true (transform (text f))). unfold files_after.
  rewrite (run_ok fs f E Hr Hw). cbn [snd files text].
  split; [apply lookup_insert_eq|]. split.
  - apply transform_without_completion_old.
  - apply transform_without_value_old.
Qed.

Lemma written_file_free_of_targets_witness :
  exists f, files_after both_fs !! target_path = Some f /\
            contains completion_old (text f) = false /\
            contains value_old (text f) = false.
Proof.
  apply (written_file_free_of_targets both_fs). vm_compute. reflexivity.
Defined.

(** ** X7 *)

(** X7.  The written text is shorter than the text read by exactly 29
    characters for each occurrence of the first target and 25 for each
    occurrence of the second. *)
Theorem written_length_exact (content : str) :
  length (transform content)
  + 29 * count_occurrences completion_old content
  + 25 * count_occurrences value_old content
  = length content.
Proof.
  destruct literal_lengths as (L1 & L2 & L3 & L4).
  pose proof (replace_length_exact completion_old completion_new
                completion_old_nonempty completion_old_border_free content)
    as H1.
  pose proof (replace_length_exact value_old value_new
                value_old_nonempty value_old_border_free
                (first_substitution content)) as H2.
  pose proof (replace_preserves_count value_old value_old_nonempty
                completion_old completion_new content completion_old_nonempty
                completion_new_vs_value_old completion_old_vs_value_old)
    as Hc.
  fold (first_substitution content) in Hc, H1. rewrite Hc in H2.
  fold (second_substitution (first_substitution content)) in H2.
  fold (transform content) in H2.
  rewrite L1, L2 in H1. rewrite L3, L4 in H2. lia.
Qed.

(** ** X8 *)

(** X8.  An occurrence of a target is rewritten whatever surrounds it, and
    the text before it and the text after it are transformed as if each
    stood alone. *)
Theorem transform_around_target (u v : str) :
  transform (u ++ completion_old ++ v) =
    transform u ++ completion_new ++ transform v /\
  transform (u ++ value_old ++ v) =
    transform u ++ value_new ++ transform v.
Proof.
  split; [apply transform_completion_old_site | apply transform_value_old_site].
Qed.

(** ** X9 *)

(** X9.  A replacement text already present in the content is written back
    as it is, its surroundings being transformed on their own; so a content
    and the same content with one target site already rewritten are written
    as the same text. *)
Theorem rewritten_site_passes_through (u v : str) :
  transform (u ++ completion_new ++ v) =
    transform u ++ completion_new ++ transform v /\
  transform (u ++ value_new ++ v) =
    transform u ++ value_new ++ transform v /\
  transform (u ++ completion_old ++ v) =
    transform (u ++ completion_new ++ v) /\
  transform (u ++ value_old ++ v) = transform (u ++ value_new ++ v).
Proof.
  split; [apply transform_completion_new_site|].
  split; [apply transform_value_new_site|]. split.
  - rewrite transform_completion_old_site, transform_completion_new_site.
    reflexivity.
  - rewrite transform_value_old_site, transform_value_new_site. reflexivity.
Qed.

(** ** X10 *)

(** X10.  A character that occurs in neither target, a newline for one,
    separates the content into parts that are transformed independently:
    the script works line by line and keeps every line break. *)
Theorem transform_splits_at_foreign_char (c : char) (u v : str) :
  c ∉ completion_old -> c ∉ value_old ->
  transform (u ++ c :: v) = transform u ++ c :: transform v.
Proof.
  intros H1 H2. unfold transform, first_substitution, second_substitution.
  change (u ++ c :: v) with (u ++ [c] ++ v).
  rewrite (replace_app3 [c] completion_old completion_new u v
             completion_old_nonempty
             (foreign_char_no_overlap c _ completion_old_nonempty H1)).
  rewrite (replace_app3 [c] value_old value_new _ _
             value_old_nonempty
             (foreign_char_no_overlap c _ value_old_nonempty H2)).
  reflexivity.
Qed.

Lemma transform_splits_at_foreign_char_witness :
  transform (both_content ++ 10%N :: both_content) =
  transform both_content ++ 10%N :: transform both_content.
Proof.
  apply (transform_splits_at_foreign_char 10%N both_content both_content);
    apply (bool_decide_unpack _); vm_compute; exact I.
Defined.

(** ** X11 *)

(** X11.  The written text equals the text read exactly when neither target
    occurs in the text read. *)
Theorem transform_fixed_point_iff (content : str) :
  transform content = content <->
  contains completion_old content = false /\
  contains value_old content = false.
Proof.
  split.
  - intros H. rewrite <- H. split.
    + apply transform_without_completion_old.
    + apply transform_without_value_old.
  - intros [H1 H2]. apply transform_noop; assumption.
Qed.

Lemma transform_fixed_point_iff_witness :
  transform plain_content = plain_content /\
  transform both_content <> both_content.
Proof.
  split.
  - apply (proj2 (transform_fixed_point_iff plain_content)).
    split; vm_compute; reflexivity.
  - intros H. apply (proj1 (transform_fixed_point_iff both_content)) in H.
    destruct H as [H _]. vm_compute in H. discriminate.
Defined.

(** ** X12 *)

(** X12.  Run again on the files it left, the script ends the same way and
    prints the same text as the first time: a repeated run fails with the
    same error or prints the confirmation line once more. *)
Theorem rerun_same_outcome (fs : gmap string file) :
  outcome (files_after fs) = outcome fs /\
  printed (files_after fs) = printed fs.
Proof.
  unfold outcome, printed, files_after.
  destruct (fs !! target_path) as [f|] eqn:E.
  - destruct (readable f) eqn:Hr.
    + destruct (writable f) eqn:Hw.
      * rewrite (run_ok fs f E Hr Hw). cbn [snd fst files stdout].
        erewrite run_ok; [| apply lookup_insert_eq | reflexivity | reflexivity].
        split; reflexivity.
      * rewrite (run_unwritable fs f E Hr Hw). cbn [snd fst files stdout].
        rewrite (run_unwritable fs f E Hr Hw). split; reflexivity.
    + rewrite (run_unreadable fs f E Hr). cbn [snd fst files stdout].
      rewrite (run_unreadable fs f E Hr). split; reflexivity.
  - rewrite (run_missing fs E). cbn [snd fst files stdout].
    rewrite (run_missing fs E). split; reflexivity.
Qed.
